(** * GM-PENCIL: the canvas core of [src/main.py]

    Shallow embedding of the [Canvas] widget's undo/redo history
    ([save_state], [undo], [redo], [clear]) and of its scanline bucket
    fill ([bucket_fill]).

    - A [QColor] is a record of its four 8-bit channels; [==] on colours
      compares all four.
    - A [QPixmap]/[QImage] is a width, a height and a pixel function;
      [toImage], [copy] and [convertFromImage] are the identity on this
      value, since the embedding has no aliasing between buffers.
    - A Python list used as a stack ([history], [redo_stack]) is a Rocq list
      in the Python order: [append] is [l ++ [x]], [pop()] takes the last
      element and [pop(0)] drops the first.
    - The flood-fill work list [stack] of [bucket_fill] is kept with its
      Python top (last element) at the head of the Rocq list.
    - The [while stack:] loop of [bucket_fill] runs on fuel; [None] means
      the fuel ran out before the stack emptied. *)

From Stdlib Require Import ZArith List Bool Lia.
From Stdlib Require String.
Import ListNotations.
Open Scope Z_scope.

(** ** Colours *)

Record color := mk_color { red : Z; green : Z; blue : Z; alpha : Z }.

(** [QColor.__eq__]: all channels (the spec is RGB for every colour here). *)
Definition color_eqb (c1 c2 : color) : bool :=
  (red c1 =? red c2) && (green c1 =? green c2) &&
  (blue c1 =? blue c2) && (alpha c1 =? alpha c2).

Definition black : color := mk_color 0 0 0 255.
Definition white : color := mk_color 255 255 255 255.

(** ** Images *)

Record image := mk_image {
  img_width : Z;
  img_height : Z;
  pixel : Z -> Z -> color
}.

Definition in_bounds (img : image) (x y : Z) : bool :=
  (0 <=? x) && (x <? img_width img) && (0 <=? y) && (y <? img_height img).

(** [img.pixelColor(x, y)]. *)
Definition pixelColor (img : image) (x y : Z) : color := pixel img x y.

(** [img.setPixelColor(x, y, c)]: Qt ignores coordinates outside the image. *)
Definition setPixelColor (img : image) (x y : Z) (c : color) : image :=
  if in_bounds img x y then
    mk_image (img_width img) (img_height img)
      (fun i j => if (i =? x) && (j =? y) then c else pixel img i j)
  else img.

(** [pixmap.fill(c)]. *)
Definition fill (img : image) (c : color) : image :=
  mk_image (img_width img) (img_height img) (fun _ _ => c).

(** ** The canvas state *)

Record canvas := mk_canvas {
  pixmap : image;
  history : list image;
  redo_stack : list image;
  pen_color : color
}.

Definition set_pixmap (s : canvas) (p : image) : canvas :=
  mk_canvas p (history s) (redo_stack s) (pen_color s).

(** [list.pop()]: the last element and the rest, [None] on an empty list
    (the source only pops after testing the list non-empty). *)
Fixpoint pop_last {A} (l : list A) : option (list A * A) :=
  match l with
  | [] => None
  | [x] => Some ([], x)
  | x :: l' =>
      match pop_last l' with
      | Some (r, y) => Some (x :: r, y)
      | None => None
      end
  end.

(** [list.pop(0)] on a list known to be non-empty. *)
Definition pop_first {A} (l : list A) : list A := tl l.

(** [Canvas.save_state]. *)
Definition save_state (s : canvas) : canvas :=
  let h := history s ++ [pixmap s] in
  let h := if Nat.ltb 50 (length h) then pop_first h else h in
  mk_canvas (pixmap s) h [] (pen_color s).

(** [Canvas.undo]. *)
Definition undo (s : canvas) : canvas :=
  match pop_last (history s) with
  | Some (h, top) => mk_canvas top h (redo_stack s ++ [pixmap s]) (pen_color s)
  | None => s
  end.

(** [Canvas.redo]. *)
Definition redo (s : canvas) : canvas :=
  match pop_last (redo_stack s) with
  | Some (r, top) => mk_canvas top (history s ++ [pixmap s]) r (pen_color s)
  | None => s
  end.

(** [Canvas.clear]. *)
Definition clear (s : canvas) : canvas :=
  let s := save_state s in
  set_pixmap s (fill (pixmap s) white).

(** ** Bucket fill *)

(** The default tolerance of [similar]. *)
Definition default_tol : Z := 10.

(** [similar(c1, c2, tol=10)] nested in [Canvas.bucket_fill]: the RGB
    channels only. *)
Definition similar (c1 c2 : color) (tol : Z) : bool :=
  (Z.abs (red c1 - red c2) <=? tol) &&
  (Z.abs (green c1 - green c2) <=? tol) &&
  (Z.abs (blue c1 - blue c2) <=? tol).

Section BucketFill.

(** The locals [width], [height], [target_color] and [replacement_color]
    of [Canvas.bucket_fill]. *)
Variables (width height : Z) (target_color replacement_color : color).

(** [while left > 0 and similar(img.pixelColor(left - 1, y), target_color):
    left -= 1], run with [k = x] rounds, enough to reach column 0. *)
Fixpoint scan_left (k : nat) (img : image) (y left : Z) : Z :=
  match k with
  | O => left
  | S k' =>
      if (0 <? left) && similar (pixelColor img (left - 1) y) target_color default_tol
      then scan_left k' img y (left - 1)
      else left
  end.

(** [while right < width - 1 and similar(img.pixelColor(right + 1, y),
    target_color): right += 1], run with [k = width - 1 - x] rounds. *)
Fixpoint scan_right (k : nat) (img : image) (y right : Z) : Z :=
  match k with
  | O => right
  | S k' =>
      if (right <? width - 1) && similar (pixelColor img (right + 1) y) target_color default_tol
      then scan_right k' img y (right + 1)
      else right
  end.

(** [for i in range(left, right + 1): ...], [n] rounds from column [i]. *)
Fixpoint span_loop (n : nat) (i y : Z) (img : image) (stack : list (Z * Z))
  : image * list (Z * Z) :=
  match n with
  | O => (img, stack)
  | S n' =>
      let img := setPixelColor img i y replacement_color in
      let stack :=
        if (0 <? y) && similar (pixelColor img i (y - 1)) target_color default_tol
        then (i, y - 1) :: stack else stack in
      let stack :=
        if (y <? height - 1) && similar (pixelColor img i (y + 1)) target_color default_tol
        then (i, y + 1) :: stack else stack in
      span_loop n' (i + 1) y img stack
  end.

(** The body of [while stack:] after [p = stack.pop()]. *)
Definition fill_step (img : image) (p : Z * Z) (stack : list (Z * Z))
  : image * list (Z * Z) :=
  let '(x, y) := p in
  if (x <? 0) || (width <=? x) || (y <? 0) || (height <=? y) then (img, stack)
  else if negb (similar (pixelColor img x y) target_color default_tol) then (img, stack)
  else
    let left := scan_left (Z.to_nat x) img y x in
    let right := scan_right (Z.to_nat (width - 1 - x)) img y x in
    span_loop (Z.to_nat (right - left + 1)) left y img stack.

(** [while stack: ...] on fuel: [None] when the fuel runs out first. *)
Fixpoint fill_loop (fuel : nat) (img : image) (stack : list (Z * Z)) : option image :=
  match fuel with
  | O => None
  | S fuel' =>
      match stack with
      | [] => Some img
      | p :: stack' =>
          let '(img', stack'') := fill_step img p stack' in
          fill_loop fuel' img' stack''
      end
  end.

End BucketFill.

(** [Canvas.bucket_fill(start_point)] with [fuel] rounds of its work loop. *)
Definition bucket_fill (fuel : nat) (s : canvas) (start_point : Z * Z) : option canvas :=
  let img := pixmap s in
  let width := img_width img in
  let height := img_height img in
  let target_color := pixelColor img (fst start_point) (snd start_point) in
  let replacement_color := pen_color s in
  if color_eqb target_color replacement_color then Some s
  else
    match fill_loop width height target_color replacement_color fuel img [start_point] with
    | Some img' => Some (set_pixmap s img')
    | None => None
    end.

(** ** Sequences of history operations *)

(** A content-mutating action as [mousePressEvent] and [open_image] do it:
    [save_state] first, then a change [f] of the pixmap. *)
Definition record_action (f : image -> image) (s : canvas) : canvas :=
  let s := save_state s in
  set_pixmap s (f (pixmap s)).

Fixpoint run_actions (fs : list (image -> image)) (s : canvas) : canvas :=
  match fs with
  | [] => s
  | f :: fs' => run_actions fs' (record_action f s)
  end.

(** [n] presses of the undo button. *)
Fixpoint undo_n (n : nat) (s : canvas) : canvas :=
  match n with
  | O => s
  | S n' => undo_n n' (undo s)
  end.

Inductive history_op := OpSave | OpUndo | OpRedo | OpClear.

Definition apply_op (o : history_op) (s : canvas) : canvas :=
  match o with
  | OpSave => save_state s
  | OpUndo => undo s
  | OpRedo => redo s
  | OpClear => clear s
  end.

Definition run_ops (os : list history_op) (s : canvas) : canvas :=
  fold_left (fun s o => apply_op o s) os s.

(** [Canvas.__init__]: empty [history] and [redo_stack]. *)
Definition initial_canvas (p : image) (c : color) : canvas := mk_canvas p [] [] c.

(** The history invariant behind the bound: both stacks together hold at
    most 50 snapshots. *)
Definition stacks_bounded (s : canvas) : Prop :=
  (length (history s) + length (redo_stack s) <= 50)%nat.

(** Concrete buffers for the scenarios. *)
Definition uniform (w h : Z) (c : color) : image := mk_image w h (fun _ _ => c).

Definition pixels_of (img : image) : list color :=
  flat_map (fun y => map (fun x => pixel img x y)
                         (map Z.of_nat (seq 0 (Z.to_nat (img_width img)))))
           (map Z.of_nat (seq 0 (Z.to_nat (img_height img)))).

Definition red_c : color := mk_color 255 0 0 255.

(** ** The rest of [Canvas] *)


(** The names of [class Tool]: six distinct string constants. *)
Inductive tool := Pen | Eraser | Line | Rect | Ellipse | Bucket.

Definition tool_eqb (t1 t2 : tool) : bool :=
  match t1, t2 with
  | Pen, Pen | Eraser, Eraser | Line, Line | Rect, Rect
  | Ellipse, Ellipse | Bucket, Bucket => true
  | _, _ => false
  end.

(** [QPen(color, width)], with its cap style ([True] for [Qt.RoundCap];
    a new [QPen] has the square cap). *)
Record qpen := mk_qpen { qpen_color : color; qpen_width : Z; qpen_round_cap : bool }.

(** The canvas widget with the fields the mouse handlers use. *)
Record widget := mk_widget {
  cv : canvas;
  cur_tool : tool;
  pen_size : Z;
  start_point : Z * Z;
  last_point : Z * Z
}.

Definition with_canvas (w : widget) (c : canvas) : widget :=
  mk_widget c (cur_tool w) (pen_size w) (start_point w) (last_point w).

Inductive mouse_button := LeftButton | RightButton | MiddleButton.

Section Painting.

(** [QPainter.drawLine], [drawRect] and [drawEllipse] on the pixmap: Qt's
    rasteriser, left abstract. *)
Variables (drawLine drawRect drawEllipse : image -> qpen -> Z * Z -> Z * Z -> image).

(** [Canvas.mousePressEvent] at position [pos]; [fuel] bounds the work loop
    of a bucket fill, [None] when it runs out. *)
Definition mousePressEvent (fuel : nat) (button : mouse_button) (pos : Z * Z) (w : widget)
  : option widget :=
  match button with
  | LeftButton =>
      let c := save_state (cv w) in
      let w := mk_widget c (cur_tool w) (pen_size w) pos pos in
      if tool_eqb (cur_tool w) Bucket then
        match bucket_fill fuel (cv w) (start_point w) with
        | Some c' => Some (with_canvas w c')
        | None => None
        end
      else Some w
  | _ => Some w
  end.

(** [Canvas.mouseMoveEvent]; [left_held] is [event.buttons() & Qt.LeftButton]. *)
Definition mouseMoveEvent (left_held : bool) (pos : Z * Z) (w : widget) : widget :=
  if left_held then
    match cur_tool w with
    | Pen | Eraser =>
        let pen := mk_qpen
          (if negb (tool_eqb (cur_tool w) Eraser) then pen_color (cv w) else white)
          (if negb (tool_eqb (cur_tool w) Eraser) then pen_size w else pen_size w * 3)
          true in
        let c := set_pixmap (cv w) (drawLine (pixmap (cv w)) pen (last_point w) pos) in
        mk_widget c (cur_tool w) (pen_size w) (start_point w) pos
    | _ => w
    end
  else w.

(** [Canvas.mouseReleaseEvent] at position [pos]. *)
Definition mouseReleaseEvent (pos : Z * Z) (w : widget) : widget :=
  let pen := mk_qpen (pen_color (cv w)) (pen_size w) false in
  let img := pixmap (cv w) in
  match cur_tool w with
  | Line => with_canvas w (set_pixmap (cv w) (drawLine img pen (start_point w) pos))
  | Rect => with_canvas w (set_pixmap (cv w) (drawRect img pen (start_point w) pos))
  | Ellipse => with_canvas w (set_pixmap (cv w) (drawEllipse img pen (start_point w) pos))
  | _ => w
  end.

(** A drag: the moves of the mouse with the left button held. *)
Definition drag (moves : list (Z * Z)) (w : widget) : widget :=
  fold_left (fun w p => mouseMoveEvent true p w) moves w.

End Painting.

Section OpenImage.

(** [QPixmap(path)] ([None] for a null pixmap) and
    [loaded.scaled(size, Qt.KeepAspectRatio, Qt.SmoothTransformation)],
    both Qt's. *)
Variables (load : String.string -> option image) (scaled : image -> Z * Z -> image).

(** [Canvas.open_image] after the dialog returned [path] ([""] when it was
    cancelled); [size] is the widget's size. *)
Definition open_image (path : String.string) (size : Z * Z) (s : canvas) : canvas :=
  if String.eqb path String.EmptyString then s
  else
    match load path with
    | None => s
    | Some loaded =>
        let s := save_state s in
        set_pixmap s (scaled loaded size)
    end.

End OpenImage.

(** ** [MainWindow]'s tool buttons *)

(** The [tools] list of [MainWindow.init_toolbar], in its order. *)
Definition all_tools : list tool := [Pen; Eraser; Line; Rect; Ellipse; Bucket].

(** [MainWindow.update_tool_buttons]: the dict [tool_buttons] as the list of
    its (tool, checked) entries. *)
Definition update_tool_buttons (current : tool) (buttons : list (tool * bool))
  : list (tool * bool) :=
  map (fun '(t, _) => (t, tool_eqb current t)) buttons.

(** [MainWindow.set_tool]: the tool and the buttons (the status text apart). *)
Definition set_tool (t : tool) (w : widget) (buttons : list (tool * bool))
  : widget * list (tool * bool) :=
  let w := mk_widget (cv w) t (pen_size w) (start_point w) (last_point w) in
  (w, update_tool_buttons (cur_tool w) buttons).

(** The in-bounds coordinates of a [w] x [h] image, row by row. *)
Definition zrange (n : Z) : list Z := map Z.of_nat (seq 0 (Z.to_nat n)).

Definition grid (w h : Z) : list (Z * Z) :=
  flat_map (fun y => map (fun x => (x, y)) (zrange w)) (zrange h).

(** The number of pixels of [img] similar to [target]. *)
Definition count_similar (img : image) (target : color) : nat :=
  length (filter (fun '(x, y) => similar (pixel img x y) target default_tol)
                 (grid (img_width img) (img_height img))).

(** The pixmaps before each of a sequence of recorded actions. *)
Fixpoint trace (fs : list (image -> image)) (s : canvas) : list image :=
  match fs with
  | [] => []
  | f :: fs' => pixmap s :: trace fs' (record_action f s)
  end.

(** The segments a drag draws: from [p] to each point of [moves] in turn,
    every segment starting where the previous one ended. *)
Fixpoint draw_path (drawLine : image -> qpen -> Z * Z -> Z * Z -> image)
  (img : image) (pen : qpen) (p : Z * Z) (moves : list (Z * Z)) : image :=
  match moves with
  | [] => img
  | q :: moves' => draw_path drawLine (drawLine img pen p q) pen q moves'
  end.

(** * Properties of the undo/redo history *)

Module History.

Lemma pop_last_app {A} (l : list A) (x : A) : pop_last (l ++ [x]) = Some (l, x).
Proof.
  induction l as [|a l IH]; [reflexivity|].
  simpl. rewrite IH. destruct l; reflexivity.
Qed.

Lemma pop_last_nil {A} (l : list A) : pop_last l = None -> l = [].
Proof.
  destruct l as [|a l]; [reflexivity|].
  destruct (exists_last (l := a :: l) ltac:(discriminate)) as [l' [x Hx]].
  rewrite Hx, pop_last_app. discriminate.
Qed.

Lemma pop_last_some {A} (l r : list A) (x : A) :
  pop_last l = Some (r, x) -> l = r ++ [x].
Proof.
  intros H. destruct l as [|a l]; [discriminate|].
  destruct (exists_last (l := a :: l) ltac:(discriminate)) as [l' [y Hy]].
  rewrite Hy, pop_last_app in *. congruence.
Qed.

Lemma hd_app_last {A} (d x : A) (l : list A) : hd d (l ++ [x]) = hd x l.
Proof. destruct l; reflexivity. Qed.

Lemma run_actions_app fs f s :
  run_actions (fs ++ [f]) s = record_action f (run_actions fs s).
Proof.
  revert s. induction fs as [|g fs IH]; intros s; [reflexivity|].
  apply IH.
Qed.

(** After [n <= 50] recorded actions the history ends with the [n]
    pre-action snapshots, the oldest of them being the starting buffer. *)
Lemma run_actions_history fs s :
  (length fs <= 50)%nat ->
  exists pre l, history (run_actions fs s) = pre ++ l /\
                length l = length fs /\ hd (pixmap s) l = pixmap s.
Proof.
  induction fs as [|f fs IH] using rev_ind; intros Hlen.
  - exists (history s), []. rewrite app_nil_r. auto.
  - rewrite length_app in Hlen. cbn in Hlen.
    destruct IH as [pre [l [Hh [Hl Hd]]]]; [lia|].
    rewrite run_actions_app.
    set (t := run_actions fs s) in *.
    assert (Hpt : hd (pixmap s) (l ++ [pixmap t]) = pixmap s).
    { rewrite hd_app_last. destruct l as [|a l].
      - destruct fs; [reflexivity|discriminate].
      - exact Hd. }
    unfold record_action, save_state, set_pixmap; cbn [history pixmap].
    rewrite Hh. destruct (Nat.ltb_spec 50 (length ((pre ++ l) ++ [pixmap t]))) as [Hgt|Hle].
    + destruct pre as [|p pre].
      * rewrite !length_app in Hgt. cbn in Hgt. lia.
      * exists pre, (l ++ [pixmap t]). cbn.
        rewrite <- app_assoc, length_app, Hl, length_app. auto.
    + exists pre, (l ++ [pixmap t]).
      rewrite <- app_assoc, length_app, Hl, length_app. auto.
Qed.

(** Undoing as often as the history suffix [l] is long restores the oldest
    snapshot of [l]. *)
Lemma undo_n_pops l : forall pre s,
  history s = pre ++ l -> pixmap (undo_n (length l) s) = hd (pixmap s) l.
Proof.
  induction l as [|x l IH] using rev_ind; intros pre s Hh; [reflexivity|].
  rewrite length_app, Nat.add_comm. cbn [length Nat.add undo_n].
  rewrite hd_app_last.
  assert (Hu : undo s = mk_canvas x (pre ++ l) (redo_stack s ++ [pixmap s]) (pen_color s)).
  { unfold undo. rewrite Hh, app_assoc, pop_last_app. reflexivity. }
  rewrite Hu. apply (IH pre). reflexivity.
Qed.

Lemma save_state_bounded s :
  (length (history s) <= 50)%nat ->
  (length (history (save_state s)) <= 50)%nat /\ redo_stack (save_state s) = [].
Proof.
  intros H0. unfold save_state; cbn [history redo_stack]. split; [|reflexivity].
  destruct (Nat.ltb_spec 50 (length (history s ++ [pixmap s]))) as [H|H]; [|exact H].
  destruct (history s) as [|a h]; cbn in *; [lia|].
  rewrite length_app in *. cbn in *. lia.
Qed.

Lemma apply_op_bounded o s : stacks_bounded s -> stacks_bounded (apply_op o s).
Proof.
  unfold stacks_bounded. intros H.
  destruct o; cbn [apply_op].
  - destruct (save_state_bounded s) as [H1 H2]; [lia|]. rewrite H2. cbn [length]. lia.
  - unfold undo. destruct (pop_last (history s)) as [[h top]|] eqn:E; [|exact H].
    apply pop_last_some in E. rewrite E, length_app in H. cbn [history redo_stack].
    rewrite length_app. cbn in *. lia.
  - unfold redo. destruct (pop_last (redo_stack s)) as [[r top]|] eqn:E; [|exact H].
    apply pop_last_some in E. rewrite E, length_app in H. cbn [history redo_stack].
    rewrite length_app. cbn in *. lia.
  - unfold clear, set_pixmap; cbn [history redo_stack].
    destruct (save_state_bounded s) as [H1 H2]; [lia|]. rewrite H2. cbn [length]. lia.
Qed.

Lemma run_ops_bounded os : forall s, stacks_bounded s -> stacks_bounded (run_ops os s).
Proof.
  induction os as [|o os IH]; intros s H; [exact H|].
  apply IH, apply_op_bounded, H.
Qed.

(** ** C1 *)

(** C1: for every sequence of at most 50 content-mutating actions, each
    calling [save_state] before changing the pixmap, undoing once per
    action restores the starting pixmap exactly. *)
Theorem undo_all_restores (fs : list (image -> image)) (s : canvas) :
  (length fs <= 50)%nat ->
  pixmap (undo_n (length fs) (run_actions fs s)) = pixmap s.
Proof.
  intros Hlen.
  destruct (run_actions_history fs s Hlen) as [pre [l [Hh [Hl Hd]]]].
  rewrite <- Hl, (undo_n_pops l pre _ Hh).
  destruct l as [|a l]; [|exact Hd].
  destruct fs; [reflexivity|discriminate].
Qed.

Lemma undo_all_restores_witness :
  (length [fun i => fill i white; fun i => fill i black] <= 50)%nat /\
  pixmap (undo_n 2 (run_actions [fun i => fill i white; fun i => fill i black]
                      (initial_canvas (uniform 2 2 black) red_c)))
  = uniform 2 2 black.
Proof.
  split; [cbn; lia|].
  apply (undo_all_restores [fun i => fill i white; fun i => fill i black]
           (initial_canvas (uniform 2 2 black) red_c)).
  cbn. lia.
Defined.

(** ** C4 *)

(** C4: in every state reached from the initial empty history by
    [save_state], [undo], [redo] and [clear], the undo stack holds at most
    50 snapshots, and [save_state] pushes the current pixmap at the end,
    dropping the oldest entry exactly when the stack already held 50. *)
Theorem undo_stack_capped (os : list history_op) (p : image) (c : color) :
  let s := run_ops os (initial_canvas p c) in
  (length (history s) <= 50)%nat /\
  history (save_state s) =
    (if Nat.eqb (length (history s)) 50 then tl (history s) else history s)
    ++ [pixmap s].
Proof.
  intros s.
  assert (Hb : stacks_bounded s) by (apply run_ops_bounded; unfold stacks_bounded; cbn; lia).
  unfold stacks_bounded in Hb.
  split; [lia|].
  unfold save_state; cbn [history].
  rewrite length_app. cbn [length].
  destruct (Nat.eqb_spec (length (history s)) 50) as [E|E].
  - rewrite (proj2 (Nat.ltb_lt 50 _)) by lia.
    destruct (history s) as [|a h]; [discriminate|reflexivity].
  - rewrite (proj2 (Nat.ltb_ge 50 _)) by lia. reflexivity.
Qed.

(** ** C5 *)

(** C5: when the undo stack is non-empty, [undo] followed by [redo] gives
    back the pixmap (and in fact the whole canvas state) of before the
    [undo]. *)
Theorem undo_redo_identity (s : canvas) :
  history s <> [] -> pixmap (redo (undo s)) = pixmap s /\ redo (undo s) = s.
Proof.
  intros Hne.
  destruct (exists_last Hne) as [h [top Ht]].
  assert (E : redo (undo s) = s).
  { unfold undo. rewrite Ht, pop_last_app. unfold redo; cbn [redo_stack history pixmap].
    rewrite pop_last_app. destruct s as [p hs r c]; cbn in *. subst hs. reflexivity. }
  rewrite E. auto.
Qed.

Lemma undo_redo_identity_witness :
  let s := mk_canvas (uniform 1 1 red_c) [uniform 1 1 black] [] red_c in
  history s <> [] /\ pixmap (redo (undo s)) = pixmap s /\ redo (undo s) = s.
Proof.
  intros s. split; [discriminate|].
  apply (undo_redo_identity s). discriminate.
Defined.

(** ** C8 *)

(** C8: [save_state] empties the redo stack in every state, so a [redo]
    right after it changes nothing (pixmap and both stacks). *)
Theorem save_state_clears_redo (s : canvas) :
  redo_stack (save_state s) = [] /\ redo (save_state s) = save_state s.
Proof. split; reflexivity. Qed.

(** ** C9 *)

(** C9: [undo] on an empty undo stack and [redo] on an empty redo stack
    leave the canvas state unchanged. *)
Theorem empty_history_noop (s : canvas) :
  (history s = [] -> undo s = s) /\ (redo_stack s = [] -> redo s = s).
Proof.
  split; intros H; [unfold undo | unfold redo]; rewrite H; reflexivity.
Qed.

Lemma empty_history_noop_witness :
  let s := initial_canvas (uniform 2 1 white) black in
  (history s = [] /\ undo s = s) /\ (redo_stack s = [] /\ redo s = s).
Proof.
  intros s. destruct (empty_history_noop s) as [Hu Hr].
  split; split; [reflexivity | apply Hu; reflexivity | reflexivity | apply Hr; reflexivity].
Defined.

(** ** C10 *)

(** C10: in every state reached from the initial empty history by
    [save_state], [undo], [redo] (and also [clear]), the two stacks hold at
    most 50 snapshots together; in particular the redo stack holds at
    most 50. *)
Theorem stacks_total_capped (os : list history_op) (p : image) (c : color) :
  let s := run_ops os (initial_canvas p c) in
  (length (history s) + length (redo_stack s) <= 50)%nat /\
  (length (redo_stack s) <= 50)%nat.
Proof.
  intros s.
  assert (Hb : stacks_bounded s) by (apply run_ops_bounded; unfold stacks_bounded; cbn; lia).
  unfold stacks_bounded in Hb. lia.
Qed.

End History.

(** * Properties of the bucket fill *)

Module Fill.

(** Case on every integer comparison of the goal. *)
Ltac zcases :=
  repeat match goal with
  | |- context [Z.eqb ?a ?b] => destruct (Z.eqb_spec a b)
  | |- context [Z.leb ?a ?b] => destruct (Z.leb_spec a b)
  | |- context [Z.ltb ?a ?b] => destruct (Z.ltb_spec a b)
  end; cbn [andb orb negb] in *; try lia; try reflexivity.

Lemma setPixelColor_dims img x y c :
  img_width (setPixelColor img x y c) = img_width img /\
  img_height (setPixelColor img x y c) = img_height img.
Proof. unfold setPixelColor. destruct (in_bounds img x y); auto. Qed.

Lemma setPixelColor_pixel img x y c i j :
  0 <= x < img_width img -> 0 <= y < img_height img ->
  pixel (setPixelColor img x y c) i j =
  if (i =? x) && (j =? y) then c else pixel img i j.
Proof.
  intros Hx Hy. unfold setPixelColor, in_bounds.
  rewrite (proj2 (Z.leb_le 0 x)), (proj2 (Z.ltb_lt x _)),
          (proj2 (Z.leb_le 0 y)), (proj2 (Z.ltb_lt y _)) by lia.
  reflexivity.
Qed.

Section Scans.

Variables (width height : Z) (target_color replacement_color : color).

Local Abbreviation sim c := (similar c target_color default_tol).

(** [scan_left] stops at column 0 or before a pixel that is not similar;
    every pixel it passed is similar. *)
Lemma scan_left_spec img y k : forall left,
  0 <= left ->
  let l := scan_left target_color k img y left in
  0 <= l <= left /\
  (forall a, l <= a < left -> sim (pixel img a y) = true) /\
  (left <= Z.of_nat k -> l = 0 \/ sim (pixel img (l - 1) y) = false).
Proof.
  induction k as [|k IH]; intros left H0; cbn [scan_left].
  - split; [lia|]. split; [intros; lia|]. intros; left; lia.
  - unfold pixelColor.
    destruct (Z.ltb_spec 0 left) as [Hp|Hp]; cbn [andb].
    + destruct (sim (pixel img (left - 1) y)) eqn:Hs.
      * destruct (IH (left - 1)) as [H1 [H2 H3]]; [lia|].
        split; [lia|]. split.
        -- intros a Ha. destruct (Z.eq_dec a (left - 1)) as [->|Hne]; [exact Hs|].
           apply H2. lia.
        -- intros Hk. apply H3. lia.
      * split; [lia|]. split; [intros; lia|]. intros; right; exact Hs.
    + split; [lia|]. split; [intros; lia|]. intros; left; lia.
Qed.

(** [scan_right], the mirror image. *)
Lemma scan_right_spec img y k : forall right,
  right <= width - 1 ->
  let r := scan_right width target_color k img y right in
  right <= r <= width - 1 /\
  (forall a, right < a <= r -> sim (pixel img a y) = true) /\
  (width - 1 - right <= Z.of_nat k -> r = width - 1 \/ sim (pixel img (r + 1) y) = false).
Proof.
  induction k as [|k IH]; intros right H0; cbn [scan_right].
  - split; [lia|]. split; [intros; lia|]. intros; left; lia.
  - unfold pixelColor.
    destruct (Z.ltb_spec right (width - 1)) as [Hp|Hp]; cbn [andb].
    + destruct (sim (pixel img (right + 1) y)) eqn:Hs.
      * destruct (IH (right + 1)) as [H1 [H2 H3]]; [lia|].
        split; [lia|]. split.
        -- intros a Ha. destruct (Z.eq_dec a (right + 1)) as [->|Hne]; [exact Hs|].
           apply H2. lia.
        -- intros Hk. apply H3. lia.
      * split; [lia|]. split; [intros; lia|]. intros; right; exact Hs.
    + split; [lia|]. split; [intros; lia|]. intros; left; lia.
Qed.

(** The span loop recolours columns [i .. i + n - 1] of row [y] and pushes
    only points of the rows just above and below, two per column at most;
    the first column's neighbours are pushed when they are similar. *)
Lemma span_loop_spec y n : forall i img stack,
  0 <= i -> i + Z.of_nat n <= img_width img -> 0 <= y < img_height img ->
  let '(img', stack') :=
    span_loop height target_color replacement_color n i y img stack in
  img_width img' = img_width img /\ img_height img' = img_height img /\
  (forall a b, pixel img' a b =
     if (b =? y) && (i <=? a) && (a <? i + Z.of_nat n) then replacement_color
     else pixel img a b) /\
  exists pushes, stack' = pushes ++ stack /\
    (length pushes <= 2 * n)%nat /\
    (forall q, In q pushes -> i <= fst q < i + Z.of_nat n /\
       ((snd q = y - 1 /\ 0 < y) \/ (snd q = y + 1 /\ y < height - 1))) /\
    ((n > 0)%nat -> 0 < y -> sim (pixel img i (y - 1)) = true ->
       exists a, In (a, y - 1) pushes) /\
    ((n > 0)%nat -> y < height - 1 -> sim (pixel img i (y + 1)) = true ->
       exists a, In (a, y + 1) pushes).
Proof.
  induction n as [|n IH]; intros i img stack Hi Hw Hy; cbn [span_loop].
  - split; [reflexivity|]. split; [reflexivity|]. split.
    + intros a b. zcases.
    + exists []. split; [reflexivity|]. split; [cbn; lia|].
      split; [intros q []|]. split; intros; lia.
  - set (img1 := setPixelColor img i y replacement_color).
    destruct (setPixelColor_dims img i y replacement_color) as [Dw Dh].
    fold img1 in Dw, Dh.
    assert (P1 : forall a b, pixel img1 a b =
              if (a =? i) && (b =? y) then replacement_color else pixel img a b).
    { intros a b. apply setPixelColor_pixel; lia. }
    unfold pixelColor. rewrite !P1.
    replace ((i =? i) && (y - 1 =? y)) with false by zcases.
    replace ((i =? i) && (y + 1 =? y)) with false by zcases.
    set (push1 := (0 <? y) && sim (pixel img i (y - 1))).
    set (push2 := (y <? height - 1) && sim (pixel img i (y + 1))).
    set (pre := (if push2 then [(i, y + 1)] else []) ++ (if push1 then [(i, y - 1)] else [])).
    assert (Hpre : (if push2 then (i, y + 1) :: (if push1 then (i, y - 1) :: stack else stack)
                    else (if push1 then (i, y - 1) :: stack else stack)) = pre ++ stack).
    { unfold pre. destruct push1, push2; reflexivity. }
    rewrite Hpre.
    specialize (IH (i + 1) img1 (pre ++ stack)).
    destruct (span_loop height target_color replacement_color n (i + 1) y img1 (pre ++ stack))
      as [img' stack'] eqn:E.
    destruct IH as [W' [H' [Px [pushes [Hs [Hl [Hq [Hup Hdn]]]]]]]]; [lia|lia|lia|].
    split; [congruence|]. split; [congruence|]. split.
    + intros a b. rewrite Px, P1. zcases.
    + exists (pushes ++ pre). split; [rewrite Hs, app_assoc; reflexivity|].
      assert (Lpre : (length pre <= 2)%nat).
      { unfold pre. destruct push1, push2; cbn; lia. }
      split; [rewrite length_app; lia|].
      split; [|split].
      * intros q Hin. apply in_app_or in Hin as [Hin|Hin].
        -- specialize (Hq q Hin). lia.
        -- unfold pre, push1, push2 in Hin.
           destruct (Z.ltb_spec 0 y), (Z.ltb_spec y (height - 1)),
                    (sim (pixel img i (y - 1))), (sim (pixel img i (y + 1)));
             cbn in Hin; intuition (subst; cbn; lia).
      * intros _ Hy0 Hsim. exists i. apply in_or_app. right.
        unfold pre, push1. rewrite (proj2 (Z.ltb_lt 0 y) Hy0), Hsim.
        apply in_or_app. right. left. reflexivity.
      * intros _ Hy0 Hsim. exists i. apply in_or_app. right.
        unfold pre, push2. rewrite (proj2 (Z.ltb_lt y _) Hy0), Hsim.
        apply in_or_app. left. left. reflexivity.
Qed.

(** One round of the work loop either leaves image and stack as they are
    (a point outside the image or not similar), or fills the span
    [left .. right] around the point, all of whose pixels are similar. *)
Lemma fill_step_cases img x y stack :
  img_width img = width -> img_height img = height ->
  (fill_step width height target_color replacement_color img (x, y) stack = (img, stack) /\
   ~ (0 <= x < width /\ 0 <= y < height /\ sim (pixel img x y) = true)) \/
  (0 <= x < width /\ 0 <= y < height /\ sim (pixel img x y) = true /\
   exists left right,
     0 <= left <= x /\ x <= right <= width - 1 /\
     (forall a, left <= a <= right -> sim (pixel img a y) = true) /\
     ((forall a, 0 <= a < width -> sim (pixel img a y) = true) ->
        left = 0 /\ right = width - 1) /\
     fill_step width height target_color replacement_color img (x, y) stack =
       span_loop height target_color replacement_color
         (Z.to_nat (right - left + 1)) left y img stack).
Proof.
  intros Hw Hh. unfold fill_step.
  destruct ((x <? 0) || (width <=? x) || (y <? 0) || (height <=? y)) eqn:Eb.
  { left. split; [reflexivity|].
    intros [Hx [Hy _]]. zcases; discriminate. }
  assert (Hx : 0 <= x < width /\ 0 <= y < height) by (zcases; discriminate).
  unfold pixelColor.
  destruct (sim (pixel img x y)) eqn:Hs; cbn [negb].
  2:{ left. split; [reflexivity|]. intros [_ [_ H]]. congruence. }
  right. split; [lia|]. split; [lia|]. split; [reflexivity|].
  destruct (scan_left_spec img y (Z.to_nat x) x) as [L1 [L2 L3]]; [lia|].
  destruct (scan_right_spec img y (Z.to_nat (width - 1 - x)) x) as [R1 [R2 R3]]; [lia|].
  set (left := scan_left target_color (Z.to_nat x) img y x) in *.
  set (right := scan_right width target_color (Z.to_nat (width - 1 - x)) img y x) in *.
  exists left, right.
  split; [lia|]. split; [lia|]. split.
  - intros a Ha.
    destruct (Z_lt_le_dec a x); [apply L2; lia|].
    destruct (Z.eq_dec a x) as [->|]; [exact Hs|]. apply R2; lia.
  - split; [|reflexivity].
    intros Hrow. split.
    + destruct (L3 ltac:(lia)) as [->|L3']; [reflexivity|].
      destruct (Z.eq_dec left 0) as [->|Hne]; [reflexivity|].
      rewrite Hrow in L3'; [discriminate|lia].
    + destruct (R3 ltac:(lia)) as [->|R3']; [reflexivity|].
      destruct (Z.eq_dec right (width - 1)) as [->|Hne]; [reflexivity|].
      rewrite Hrow in R3'; [discriminate|lia].
Qed.

(** Every pixel a run of the work loop changes was similar to the target
    in the image the loop started from. *)
Lemma fill_loop_only_similar img0 fuel : forall img stack img',
  img_width img = width -> img_height img = height ->
  (forall a b, pixel img a b = pixel img0 a b \/ sim (pixel img0 a b) = true) ->
  fill_loop width height target_color replacement_color fuel img stack = Some img' ->
  forall a b, pixel img' a b = pixel img0 a b \/ sim (pixel img0 a b) = true.
Proof.
  induction fuel as [|fuel IH]; intros img stack img' Hw Hh Hinv Hrun; [discriminate|].
  cbn [fill_loop] in Hrun. destruct stack as [|[x y] stack].
  { injection Hrun as <-. exact Hinv. }
  destruct (fill_step_cases img x y stack Hw Hh) as [[E _]|[Hx [Hy [Hs [l [r [Hl [Hr [Hsim [_ E]]]]]]]]]];
    rewrite E in Hrun.
  - eapply IH; eauto.
  - pose proof (span_loop_spec y (Z.to_nat (r - l + 1)) l img stack) as Sp.
    destruct (span_loop height target_color replacement_color (Z.to_nat (r - l + 1)) l y img stack)
      as [img1 stack1] eqn:E1.
    destruct Sp as [W1 [H1 [P1 _]]]; [lia|lia|lia|].
    apply (IH img1 stack1); [congruence|congruence| |exact Hrun].
    intros a b. rewrite P1.
    destruct ((b =? y) && (l <=? a) && (a <? l + Z.of_nat (Z.to_nat (r - l + 1)))) eqn:Ein.
    + destruct (Hinv a b) as [Heq|Hsim0]; [|right; exact Hsim0].
      right. rewrite <- Heq.
      apply andb_true_iff in Ein as [Ein Ec]. apply andb_true_iff in Ein as [Ea Eb].
      apply Z.eqb_eq in Ea as ->. apply Z.leb_le in Eb. apply Z.ltb_lt in Ec.
      apply Hsim. lia.
    + apply Hinv.
Qed.

(** When the replacement colour is itself similar to the target, a region
    of at least two rows whose pixels are all similar never empties the
    work stack: every round recolours a span with a similar colour and
    pushes a neighbour of it again. *)
Lemma fill_loop_diverges fuel : forall img stack,
  img_width img = width -> img_height img = height -> 2 <= height ->
  sim replacement_color = true ->
  (forall a b, 0 <= a < width -> 0 <= b < height -> sim (pixel img a b) = true) ->
  stack <> [] ->
  (forall q, In q stack -> 0 <= fst q < width /\ 0 <= snd q < height) ->
  fill_loop width height target_color replacement_color fuel img stack = None.
Proof.
  induction fuel as [|fuel IH]; intros img stack Hw Hh H2 Hrep Hall Hne Hin; [reflexivity|].
  cbn [fill_loop]. destruct stack as [|[x y] stack]; [congruence|].
  destruct (Hin (x, y) (or_introl eq_refl)) as [Hx Hy]. cbn [fst snd] in Hx, Hy.
  destruct (fill_step_cases img x y stack Hw Hh)
    as [[_ Hno]|[_ [_ [_ [l [r [Hl [Hr [_ [_ E]]]]]]]]]].
  { exfalso. apply Hno. split; [lia|]. split; [lia|]. apply Hall; lia. }
  rewrite E.
  pose proof (span_loop_spec y (Z.to_nat (r - l + 1)) l img stack) as Sp.
  destruct (span_loop height target_color replacement_color (Z.to_nat (r - l + 1)) l y img stack)
    as [img1 stack1] eqn:E1.
  destruct Sp as [W1 [H1 [P1 [pushes [Hs [_ [Hq [Hup Hdn]]]]]]]]; [lia|lia|lia|].
  apply IH; [congruence|congruence|exact H2|exact Hrep| | |].
  - intros a b Ha Hb. rewrite P1.
    destruct (_ && _ && _); [exact Hrep|]. apply Hall; lia.
  - assert (Hpush : exists q, In q pushes).
    { destruct (Z.ltb_spec 0 y) as [Hy0|Hy0].
      - destruct (Hup ltac:(lia) Hy0) as [a Ha]; [apply Hall; lia|]. eauto.
      - destruct (Hdn ltac:(lia) ltac:(lia)) as [a Ha]; [apply Hall; lia|]. eauto. }
    destruct Hpush as [q Hq']. rewrite Hs. destruct pushes; [contradiction|discriminate].
  - intros q Hq'. rewrite Hs in Hq'. apply in_app_or in Hq' as [Hq'|Hq'].
    + specialize (Hq q Hq'). lia.
    + apply Hin. right. exact Hq'.
Qed.

(** On a uniform buffer the filled rows form an interval [a .. b] that
    grows by one row per productive round; points of the stack lie in the
    rows [a - 1 .. b + 1], and each unfilled neighbour row of the interval
    has a point on the stack. With a replacement colour that is not
    similar to the target the loop ends with every pixel recoloured. *)
Lemma fill_loop_fills_uniform fuel : forall img stack a b,
  img_width img = width -> img_height img = height -> 1 <= width ->
  sim replacement_color = false -> sim target_color = true ->
  0 <= a -> b <= height - 1 -> a <= b + 1 ->
  (forall x y, 0 <= x < width -> 0 <= y < height ->
     pixel img x y = if (a <=? y) && (y <=? b) then replacement_color else target_color) ->
  (forall q, In q stack ->
     0 <= fst q < width /\ 0 <= snd q < height /\ a - 1 <= snd q <= b + 1) ->
  (a <= b -> (0 < a -> exists x, In (x, a - 1) stack) /\
             (b < height - 1 -> exists x, In (x, b + 1) stack)) ->
  (a = b + 1 -> stack <> []) ->
  Z.of_nat fuel > (height - (b - a + 1)) * (2 * width + 1) + Z.of_nat (length stack) ->
  exists img', fill_loop width height target_color replacement_color fuel img stack = Some img' /\
    forall x y, 0 <= x < width -> 0 <= y < height -> pixel img' x y = replacement_color.
Proof.
  induction fuel as [|fuel IH];
    intros img stack a b Hw Hh HW Hr Ht Ha Hb Hab Hpix Hin Hwit Hne Hfuel.
  { exfalso. assert (0 <= (height - (b - a + 1)) * (2 * width + 1)) by nia. lia. }
  cbn [fill_loop]. destruct stack as [|[x y] stack].
  { exists img. split; [reflexivity|]. intros x y Hx Hy.
    destruct (Z_le_gt_dec a b) as [Hle|Hgt]; [|exfalso; apply (Hne ltac:(lia)); reflexivity].
    destruct (Hwit Hle) as [W1 W2].
    assert (a = 0) by (destruct (Z.eq_dec a 0); [lia|destruct W1 as [? []]; lia]).
    assert (b = height - 1)
      by (destruct (Z.eq_dec b (height - 1)); [lia|destruct W2 as [? []]; lia]).
    rewrite Hpix by lia. zcases. }
  destruct (Hin (x, y) (or_introl eq_refl)) as [Hx [Hy Hy']]. cbn [fst snd] in Hx, Hy, Hy'.
  cbn [length] in Hfuel.
  destruct (fill_step_cases img x y stack Hw Hh)
    as [[E Hno]|[_ [_ [Hs [l [r [Hl [Hr' [_ [Hrow E]]]]]]]]]]; rewrite E.
  - (* a point of a filled row: dropped *)
    assert (Hyab : a <= y <= b).
    { destruct (Z_le_gt_dec a y), (Z_le_gt_dec y b); try lia;
        exfalso; apply Hno; (split; [lia|]); (split; [lia|]);
        rewrite Hpix by lia; zcases; exact Ht. }
    apply (IH img stack a b); auto; try lia.
    + intros q Hq. apply Hin. right. exact Hq.
    + intros Hle. destruct (Hwit Hle) as [W1 W2]. split.
      * intros Ha0. destruct (W1 Ha0) as [x' [Hq|Hq]]; [injection Hq; lia|eauto].
      * intros Hb0. destruct (W2 Hb0) as [x' [Hq|Hq]]; [injection Hq; lia|eauto].
  - (* a point of an unfilled row: the whole row is filled *)
    assert (Hy2 : ~ (a <= y <= b)).
    { intros Hyab. rewrite Hpix in Hs by lia.
      replace ((a <=? y) && (y <=? b)) with true in Hs by zcases. congruence. }
    destruct (Hrow ltac:(intros a' Ha'; rewrite Hpix by lia;
                         replace ((a <=? y) && (y <=? b)) with false by zcases; exact Ht))
      as [-> ->].
    replace (Z.to_nat (width - 1 - 0 + 1)) with (Z.to_nat width) by (f_equal; lia).
    pose proof (span_loop_spec y (Z.to_nat width) 0 img stack) as Sp.
    destruct (span_loop height target_color replacement_color (Z.to_nat width) 0 y img stack)
      as [img1 stack1] eqn:E1.
    destruct Sp as [W1 [H1 [P1 [pushes [Hs1 [Hlen [Hq [Hup Hdn]]]]]]]]; [lia|lia|lia|].
    assert (Hup' : 0 < y -> ~ (a <= y - 1 <= b) -> exists x', In (x', y - 1) pushes).
    { intros Hy0 Hn. apply Hup; [lia|exact Hy0|]. rewrite Hpix by lia.
      replace ((a <=? y - 1) && (y - 1 <=? b)) with false by zcases. exact Ht. }
    assert (Hdn' : y < height - 1 -> ~ (a <= y + 1 <= b) -> exists x', In (x', y + 1) pushes).
    { intros Hy0 Hn. apply Hdn; [lia|exact Hy0|]. rewrite Hpix by lia.
      replace ((a <=? y + 1) && (y + 1 <=? b)) with false by zcases. exact Ht. }
    assert (Hold : forall z, z <> y -> (exists x', In (x', z) ((x, y) :: stack)) ->
                   exists x', In (x', z) stack1).
    { intros z Hz [x' [Hx'|Hx']]; [injection Hx'; lia|].
      exists x'. rewrite Hs1. apply in_or_app. right. exact Hx'. }
    assert (Hlen' : (length stack1 <= 2 * Z.to_nat width + length stack)%nat).
    { rewrite Hs1, length_app. lia. }
    destruct (Z.eq_dec y (b + 1)) as [Eb|Eb].
    + (* the interval grows downwards *)
      apply (IH img1 stack1 a (b + 1));
        [congruence|congruence|lia|exact Hr|exact Ht|lia|lia|lia| | | |intros; lia|].
      * intros x' y' Hx' Hy''. rewrite P1. rewrite Hpix by lia. zcases.
      * intros q Hq'. rewrite Hs1 in Hq'. apply in_app_or in Hq' as [Hq'|Hq'].
        -- specialize (Hq q Hq'). lia.
        -- specialize (Hin q (or_intror Hq')). lia.
      * intros _. split.
        -- intros Ha0. destruct (Z_le_gt_dec a b) as [Hle|Hgt].
           ++ apply Hold; [lia|]. apply (proj1 (Hwit Hle) Ha0).
           ++ destruct (Hup' ltac:(lia) ltac:(lia)) as [x' Hx'].
              exists x'. rewrite Hs1. apply in_or_app. left.
              replace (a - 1) with (y - 1) by lia. exact Hx'.
        -- intros Hb0. destruct (Hdn' ltac:(lia) ltac:(lia)) as [x' Hx'].
           exists x'. rewrite Hs1. apply in_or_app. left.
           replace (b + 1 + 1) with (y + 1) by lia. exact Hx'.
      * nia.
    + (* the interval grows upwards *)
      assert (Ea : y = a - 1) by lia.
      apply (IH img1 stack1 (a - 1) b);
        [congruence|congruence|lia|exact Hr|exact Ht|lia|lia|lia| | | |intros; lia|].
      * intros x' y' Hx' Hy''. rewrite P1. rewrite Hpix by lia. zcases.
      * intros q Hq'. rewrite Hs1 in Hq'. apply in_app_or in Hq' as [Hq'|Hq'].
        -- specialize (Hq q Hq'). lia.
        -- specialize (Hin q (or_intror Hq')). lia.
      * intros _. split.
        -- intros Ha0. destruct (Hup' ltac:(lia) ltac:(lia)) as [x' Hx'].
           exists x'. rewrite Hs1. apply in_or_app. left.
           replace (a - 1 - 1) with (y - 1) by lia. exact Hx'.
        -- intros Hb0. destruct (Z_le_gt_dec a b) as [Hle|Hgt].
           ++ apply Hold; [lia|]. apply (proj2 (Hwit Hle) Hb0).
           ++ destruct (Hdn' ltac:(lia) ltac:(lia)) as [x' Hx'].
              exists x'. rewrite Hs1. apply in_or_app. left.
              replace (b + 1) with (y + 1) by lia. exact Hx'.
      * nia.
Qed.

End Scans.

Lemma color_eqb_refl c : color_eqb c c = true.
Proof. unfold color_eqb. rewrite !Z.eqb_refl. reflexivity. Qed.

(** ** C6 *)

(** C6: when the seed pixel already has the pen colour, [bucket_fill]
    returns at once and the canvas (so its pixmap) is unchanged. *)
Theorem fill_same_color_noop (fuel : nat) (s : canvas) (start_point : Z * Z) :
  pixelColor (pixmap s) (fst start_point) (snd start_point) = pen_color s ->
  bucket_fill fuel s start_point = Some s.
Proof.
  intros H. unfold bucket_fill. cbv zeta. rewrite H, color_eqb_refl. reflexivity.
Qed.

Lemma fill_same_color_noop_witness :
  let s := initial_canvas (uniform 3 3 black) black in
  pixelColor (pixmap s) 1 1 = pen_color s /\ bucket_fill 0 s (1, 1) = Some s.
Proof.
  intros s. split; [reflexivity|].
  apply (fill_same_color_noop 0 s (1, 1)). reflexivity.
Defined.

(** ** C7 *)

(** C7: [similar] with the default tolerance 10 compares the red, green
    and blue channels, each within 10, and ignores alpha; and a pixel that
    [bucket_fill] changes was similar to the seed pixel's colour. *)
Theorem similar_componentwise (c1 c2 : color) (fuel : nat) (s : canvas) (start_point : Z * Z) :
  default_tol = 10 /\
  (similar c1 c2 default_tol = true <->
     Z.abs (red c1 - red c2) <= 10 /\ Z.abs (green c1 - green c2) <= 10 /\
     Z.abs (blue c1 - blue c2) <= 10) /\
  (forall a1 a2,
     similar (mk_color (red c1) (green c1) (blue c1) a1)
             (mk_color (red c2) (green c2) (blue c2) a2) default_tol
     = similar c1 c2 default_tol) /\
  match bucket_fill fuel s start_point with
  | Some s' => forall x y,
      pixel (pixmap s') x y = pixel (pixmap s) x y \/
      similar (pixel (pixmap s) x y)
              (pixelColor (pixmap s) (fst start_point) (snd start_point)) default_tol = true
  | None => True
  end.
Proof.
  split; [reflexivity|]. split; [|split].
  - unfold similar. rewrite !andb_true_iff, !Z.leb_le. unfold default_tol. tauto.
  - intros a1 a2. reflexivity.
  - unfold bucket_fill. cbv zeta.
    destruct (color_eqb _ _); [intros; left; reflexivity|].
    destruct (fill_loop _ _ _ _ fuel (pixmap s) [start_point]) as [img'|] eqn:E; [|exact I].
    cbn [pixmap set_pixmap]. intros x y.
    eapply fill_loop_only_similar; [reflexivity|reflexivity| |exact E].
    intros; left; reflexivity.
Qed.

Lemma similar_componentwise_witness :
  let s := initial_canvas (setPixelColor (uniform 3 3 black) 0 0 white) red_c in
  match bucket_fill 100 s (1, 1) with
  | Some s' => pixel (pixmap s') 0 0 = white /\ pixel (pixmap s') 1 1 = red_c
  | None => False
  end /\
  similar (pixel (pixmap s) 1 1) (pixelColor (pixmap s) 1 1) default_tol = true.
Proof.
  intros s. split; [vm_compute; split; reflexivity|].
  destruct (similar_componentwise black black 100 s (1, 1)) as [_ [_ [_ Hf]]].
  destruct (bucket_fill 100 s (1, 1)) as [s'|] eqn:E; [|vm_compute in E; discriminate].
  destruct (Hf 1 1) as [Heq|Hsim]; [|exact Hsim].
  vm_compute. reflexivity.
Defined.

(** The canvas-level form: an in-bounds seed in a region of at least two
    rows all similar to it, with a pen colour similar to the seed colour
    but not equal to it, makes [bucket_fill] run out of any fuel. *)
Lemma bucket_fill_diverges (s : canvas) (x y : Z) :
  let img := pixmap s in
  let target := pixel img x y in
  0 <= x < img_width img -> 0 <= y < img_height img -> 2 <= img_height img ->
  color_eqb target (pen_color s) = false ->
  similar (pen_color s) target default_tol = true ->
  (forall a b, 0 <= a < img_width img -> 0 <= b < img_height img ->
     similar (pixel img a b) target default_tol = true) ->
  forall fuel, bucket_fill fuel s (x, y) = None.
Proof.
  intros img target Hx Hy H2 Hneq Hrep Hall fuel.
  unfold bucket_fill. cbv zeta. cbn [fst snd]. unfold pixelColor.
  fold img target. rewrite Hneq.
  rewrite fill_loop_diverges; try reflexivity; try assumption.
  - discriminate.
  - intros q [<-|[]]. cbn. lia.
Qed.

Lemma similar_refl c : similar c c default_tol = true.
Proof. unfold similar, default_tol. rewrite !Z.sub_diag. reflexivity. Qed.

Lemma color_eqb_true c1 c2 : color_eqb c1 c2 = true -> c1 = c2.
Proof.
  destruct c1, c2. unfold color_eqb. cbn.
  rewrite !andb_true_iff, !Z.eqb_eq. intros [[[-> ->] ->] ->]. reflexivity.
Qed.

(** On a uniform buffer, a pen colour that is not similar to the buffer's
    colour makes [bucket_fill] end, with every pixel in the pen colour. *)
Lemma bucket_fill_uniform_complete (w h : Z) (c : color) (s : canvas) (x y : Z) :
  pixmap s = uniform w h c -> 0 <= x < w -> 0 <= y < h ->
  similar (pen_color s) c default_tol = false ->
  exists fuel s', bucket_fill fuel s (x, y) = Some s' /\
    forall a b, 0 <= a < w -> 0 <= b < h -> pixel (pixmap s') a b = pen_color s.
Proof.
  intros Hp Hx Hy Hns.
  assert (Hne : color_eqb c (pen_color s) = false).
  { destruct (color_eqb c (pen_color s)) eqn:E; [|reflexivity].
    apply color_eqb_true in E. rewrite <- E, similar_refl in Hns. discriminate. }
  destruct (fill_loop_fills_uniform w h c (pen_color s) (Z.to_nat (h * (2 * w + 1) + 2))
              (uniform w h c) [(x, y)] y (y - 1))
    as [img' [Hrun Hall]];
    [reflexivity|reflexivity|lia|exact Hns|apply similar_refl|lia|lia|lia| | | | | |].
  - intros x' y' _ _. cbn. replace ((y <=? y') && (y' <=? y - 1)) with false by zcases.
    reflexivity.
  - intros q [<-|[]]. cbn. lia.
  - intros Hlt. exfalso. lia.
  - intros _. discriminate.
  - cbn [length]. rewrite Z2Nat.id by nia. nia.
  - exists (Z.to_nat (h * (2 * w + 1) + 2)), (set_pixmap s img'). split.
    + unfold bucket_fill. cbv zeta. rewrite Hp. cbn [fst snd pixelColor pixel uniform].
      rewrite Hne. cbn [img_width img_height uniform]. rewrite Hrun. reflexivity.
    + exact Hall.
Qed.

(** ** C2 *)

(** C2 (fails): the equality guard does not make the work loop total. On
    the application's 1000x600 white start canvas, a pen colour
    (250, 250, 250) that is within the tolerance 10 of white but not equal
    to it lets the loop recolour the region again and again: no fuel is
    enough for [bucket_fill] to return. *)
Theorem fill_loop_nonterminating (fuel : nat) :
  bucket_fill fuel (initial_canvas (uniform 1000 600 white) (mk_color 250 250 250 255))
    (500, 300) = None.
Proof.
  apply bucket_fill_diverges; cbn; try lia; try reflexivity.
Qed.

(** ** C3 *)

(** C3 (fails for fill colours similar to the seed colour): on the 3x3
    all-black buffer a fill from (1, 1) with red (255, 0, 0) ends with all
    nine pixels red, but with (5, 0, 0), which differs from black yet is
    within the tolerance, [bucket_fill] never returns. *)
Theorem fill_uniform_3x3 :
  option_map (fun s' => pixels_of (pixmap s'))
    (bucket_fill 20 (initial_canvas (uniform 3 3 black) red_c) (1, 1))
  = Some (repeat red_c 9) /\
  (forall fuel,
     bucket_fill fuel (initial_canvas (uniform 3 3 black) (mk_color 5 0 0 255)) (1, 1) = None).
Proof.
  split.
  - vm_compute. reflexivity.
  - intros fuel. apply bucket_fill_diverges; cbn; try lia; try reflexivity.
Qed.

End Fill.

(** * Further properties of the canvas *)

Module Extra.

Import History.

(** [redo] followed by [undo] gives back the state before the [redo]. *)
Theorem redo_undo_identity (s : canvas) :
  redo_stack s <> [] -> undo (redo s) = s.
Proof.
  intros Hne. destruct (exists_last Hne) as [r [top Ht]].
  unfold redo. rewrite Ht, pop_last_app. unfold undo; cbn [history redo_stack pixmap].
  rewrite pop_last_app. destruct s as [p hs rs c]; cbn in *. subst rs. reflexivity.
Qed.

Lemma redo_undo_identity_witness :
  let s := mk_canvas (uniform 1 1 black) [] [uniform 1 1 red_c] red_c in
  redo_stack s <> [] /\ undo (redo s) = s.
Proof.
  intros s. split; [discriminate|]. apply redo_undo_identity. discriminate.
Defined.

(** [clear] keeps the size, makes every pixel white, empties the redo
    stack, and one [undo] brings back the pixmap from before. *)
Theorem clear_spec (s : canvas) :
  let s' := clear s in
  img_width (pixmap s') = img_width (pixmap s) /\
  img_height (pixmap s') = img_height (pixmap s) /\
  (forall x y, pixel (pixmap s') x y = white) /\
  redo_stack s' = [] /\
  pixmap (undo s') = pixmap s.
Proof.
  cbn zeta. split; [reflexivity|]. split; [reflexivity|].
  split; [reflexivity|]. split; [reflexivity|].
  unfold clear, save_state, set_pixmap, undo; cbn [history pixmap].
  destruct (Nat.ltb_spec 50 (length (history s ++ [pixmap s]))) as [Hgt|_].
  - unfold pop_first. destruct (history s) as [|a h]; cbn [app tl].
    + cbn in Hgt. lia.
    + rewrite pop_last_app. reflexivity.
  - rewrite pop_last_app. reflexivity.
Qed.

Lemma trace_app fs f s :
  trace (fs ++ [f]) s = trace fs s ++ [pixmap (run_actions fs s)].
Proof.
  revert s. induction fs as [|g fs IH]; intros s; [reflexivity|].
  cbn [app trace run_actions]. rewrite IH. reflexivity.
Qed.

Lemma trace_length fs s : length (trace fs s) = length fs.
Proof.
  revert s. induction fs as [|f fs IH]; intros s; [reflexivity|]. cbn. rewrite IH. reflexivity.
Qed.

Lemma nth_trace fs : forall k s d,
  (k < length fs)%nat -> nth k (trace fs s) d = pixmap (run_actions (firstn k fs) s).
Proof.
  induction fs as [|f fs IH]; intros k s d Hk; [cbn in Hk; lia|].
  destruct k as [|k]; [reflexivity|]. cbn in Hk |- *. apply IH. lia.
Qed.

Lemma tl_skipn {A} k : forall (l : list A), tl (skipn k l) = skipn (S k) l.
Proof.
  induction k as [|k IH]; intros l; [destruct l; reflexivity|].
  destruct l as [|a l]; [reflexivity|]. apply IH.
Qed.

Lemma hd_skipn {A} (d : A) k : forall l, hd d (skipn k l) = nth k l d.
Proof.
  induction k as [|k IH]; intros l; destruct l; try reflexivity. apply IH.
Qed.

(** From an empty history, the history holds the last (at most) 50
    pre-action pixmaps. *)
Lemma history_trace fs s :
  history s = [] ->
  history (run_actions fs s) = skipn (length fs - 50) (trace fs s).
Proof.
  intros H0. induction fs as [|f fs IH] using rev_ind; [exact H0|].
  rewrite run_actions_app, trace_app, length_app. cbn [length].
  unfold record_action, save_state, set_pixmap; cbn [history].
  rewrite IH. set (T := trace fs s). set (p := pixmap (run_actions fs s)).
  assert (HT : length T = length fs) by apply trace_length.
  assert (Hsk : skipn (length fs - 50) T ++ [p] = skipn (length fs - 50) (T ++ [p])).
  { rewrite skipn_app, HT. replace (length fs - 50 - length fs)%nat with 0%nat by lia.
    reflexivity. }
  rewrite Hsk, length_skipn, length_app, HT. cbn [length].
  destruct (Nat.ltb_spec 50 (length fs + 1 - (length fs - 50))).
  - unfold pop_first. rewrite tl_skipn. f_equal. lia.
  - replace (length fs - 50)%nat with 0%nat by lia.
    replace (length fs + 1 - 50)%nat with 0%nat by lia. reflexivity.
Qed.

Lemma undo_n_history l : forall pre s,
  history s = pre ++ l -> history (undo_n (length l) s) = pre.
Proof.
  induction l as [|x l IH] using rev_ind; intros pre s Hh.
  - rewrite app_nil_r in Hh. exact Hh.
  - rewrite length_app, Nat.add_comm. cbn [length Nat.add undo_n].
    assert (Hu : undo s = mk_canvas x (pre ++ l) (redo_stack s ++ [pixmap s]) (pen_color s)).
    { unfold undo. rewrite Hh, app_assoc, pop_last_app. reflexivity. }
    rewrite Hu. apply IH. reflexivity.
Qed.

(** Only the 50 most recent snapshots survive: after [n >= 50] recorded
    actions from an empty history, 50 undos lead back to the pixmap after
    the first [n - 50] actions, and the history is then empty, so older
    pixmaps cannot be reached. *)
Theorem undo_reaches_only_50 (fs : list (image -> image)) (s : canvas) :
  history s = [] -> (50 <= length fs)%nat ->
  pixmap (undo_n 50 (run_actions fs s)) = pixmap (run_actions (firstn (length fs - 50) fs) s) /\
  history (undo_n 50 (run_actions fs s)) = [].
Proof.
  intros H0 Hn.
  pose proof (history_trace fs s H0) as Hh.
  set (l := skipn (length fs - 50) (trace fs s)) in Hh.
  assert (Hl : length l = 50%nat) by (unfold l; rewrite length_skipn, trace_length; lia).
  pose proof (undo_n_pops l [] _ Hh) as P1. pose proof (undo_n_history l [] _ Hh) as P2.
  rewrite Hl in P1, P2. split; [|exact P2].
  rewrite P1. unfold l. rewrite hd_skipn. apply nth_trace. lia.
Qed.

Lemma undo_reaches_only_50_witness :
  let fs := repeat (fun i => fill i black) 51 in
  let s := initial_canvas (uniform 2 2 white) red_c in
  (history s = [] /\ (50 <= length fs)%nat) /\
  pixmap (undo_n 50 (run_actions fs s)) = pixmap (run_actions (firstn 1 fs) s) /\
  history (undo_n 50 (run_actions fs s)) = [].
Proof.
  intros fs s. split; [split; [reflexivity|cbn; lia]|].
  apply (undo_reaches_only_50 fs s); [reflexivity|cbn; lia].
Defined.



(** [open_image] does nothing when the dialog was cancelled or the file
    does not load; a loaded image replaces the pixmap as one undoable
    step that empties the redo stack. *)
Theorem open_image_spec (load : String.string -> option image)
    (scaled : image -> Z * Z -> image) (path : String.string) (size : Z * Z) (s : canvas) :
  (path = String.EmptyString -> open_image load scaled path size s = s) /\
  (load path = None -> open_image load scaled path size s = s) /\
  (forall loaded, path <> String.EmptyString -> load path = Some loaded ->
     let s' := open_image load scaled path size s in
     pixmap s' = scaled loaded size /\ redo_stack s' = [] /\ pixmap (undo s') = pixmap s).
Proof.
  split; [|split].
  - intros ->. reflexivity.
  - intros Hl. unfold open_image. destruct (String.eqb path String.EmptyString); [reflexivity|].
    rewrite Hl. reflexivity.
  - intros loaded Hp Hl. cbn zeta. unfold open_image.
    rewrite (proj2 (String.eqb_neq path String.EmptyString) Hp), Hl.
    split; [reflexivity|]. split; [reflexivity|].
    unfold save_state, set_pixmap, undo; cbn [history pixmap].
    destruct (Nat.ltb_spec 50 (length (history s ++ [pixmap s]))) as [Hgt|_].
    + unfold pop_first. destruct (history s) as [|a h]; cbn [app tl].
      * cbn in Hgt. lia.
      * rewrite pop_last_app. reflexivity.
    + rewrite pop_last_app. reflexivity.
Qed.

Lemma open_image_spec_witness :
  let load := fun (p : String.string) =>
    if String.eqb p String.EmptyString then None else Some (uniform 4 4 red_c) in
  let scaled := fun (i : image) (_ : Z * Z) => i in
  let path := String.String (Ascii.Ascii true false false false false true true false) String.EmptyString in
  let s := initial_canvas (uniform 2 2 white) black in
  path <> String.EmptyString /\ load path = Some (uniform 4 4 red_c) /\
  pixmap (undo (open_image load scaled path (2, 2) s)) = pixmap s.
Proof.
  intros load scaled path s. split; [discriminate|]. split; [reflexivity|].
  destruct (open_image_spec load scaled path (2, 2) s) as [_ [_ H]].
  apply (H (uniform 4 4 red_c)); [discriminate|reflexivity].
Defined.

Lemma bucket_fill_stacks fuel s start s' :
  bucket_fill fuel s start = Some s' ->
  history s' = history s /\ redo_stack s' = redo_stack s /\ pen_color s' = pen_color s.
Proof.
  unfold bucket_fill. cbv zeta.
  destruct (color_eqb _ _); [intros [= <-]; auto|].
  destruct (fill_loop _ _ _ _ _ _ _); [intros [= <-]; cbn; auto|discriminate].
Qed.

Lemma save_state_history_last c :
  exists h, history (save_state c) = h ++ [pixmap c].
Proof.
  unfold save_state; cbn [history].
  destruct (Nat.ltb_spec 50 (length (history c ++ [pixmap c]))) as [Hgt|_]; [|eauto].
  unfold pop_first. destruct (history c) as [|a h]; cbn [app tl]; [cbn in Hgt; lia|eauto].
Qed.

Lemma drag_stacks drawLine moves : forall w,
  history (cv (drag drawLine moves w)) = history (cv w) /\
  redo_stack (cv (drag drawLine moves w)) = redo_stack (cv w).
Proof.
  induction moves as [|p moves IH]; intros w; [auto|].
  cbn [drag fold_left]. fold (drag drawLine moves (mouseMoveEvent drawLine true p w)).
  rewrite !(proj1 (IH _)), !(proj2 (IH _)).
  unfold mouseMoveEvent. destruct (cur_tool w); cbn; auto.
Qed.

Lemma release_stacks drawLine drawRect drawEllipse q w :
  let w' := mouseReleaseEvent drawLine drawRect drawEllipse q w in
  history (cv w') = history (cv w) /\ redo_stack (cv w') = redo_stack (cv w).
Proof. unfold mouseReleaseEvent. destruct (cur_tool w); cbn; auto. Qed.

(** [mousePressEvent] ignores every button but the left one. A left press
    records the pixmap in the history as [save_state] does and empties the
    redo stack, whatever the tool, even when the press paints nothing. *)
Theorem press_records_snapshot (fuel : nat) (b : mouse_button) (pos : Z * Z) (w w1 : widget) :
  (b <> LeftButton -> mousePressEvent fuel b pos w = Some w) /\
  (mousePressEvent fuel LeftButton pos w = Some w1 ->
     history (cv w1) = history (save_state (cv w)) /\ redo_stack (cv w1) = [] /\
     start_point w1 = pos /\ last_point w1 = pos).
Proof.
  split.
  - intros Hb. destruct b; [congruence|reflexivity|reflexivity].
  - unfold mousePressEvent; cbn [cur_tool cv start_point].
    destruct (tool_eqb (cur_tool w) Bucket).
    + destruct (bucket_fill fuel (save_state (cv w)) pos) as [c'|] eqn:E; [|discriminate].
      intros [= <-]. apply bucket_fill_stacks in E as [E1 [E2 _]].
      cbn. rewrite E1, E2. auto.
    + intros [= <-]. cbn. auto.
Qed.

Lemma press_records_snapshot_witness :
  let w := mk_widget (mk_canvas (uniform 2 2 black) [] [uniform 2 2 white] black)
                     Bucket 4 (0, 0) (0, 0) in
  mousePressEvent 5 LeftButton (1, 1) w = Some (with_canvas (mk_widget
     (save_state (cv w)) Bucket 4 (1, 1) (1, 1)) (save_state (cv w))) /\
  redo_stack (cv (with_canvas (mk_widget (save_state (cv w)) Bucket 4 (1, 1) (1, 1))
                   (save_state (cv w)))) = [] /\
  mousePressEvent 5 RightButton (1, 1) w = Some w.
Proof.
  intros w.
  assert (E : mousePressEvent 5 LeftButton (1, 1) w = Some (with_canvas (mk_widget
     (save_state (cv w)) Bucket 4 (1, 1) (1, 1)) (save_state (cv w)))) by reflexivity.
  split; [exact E|]. split.
  - apply (press_records_snapshot 5 RightButton (1, 1) w _). exact E.
  - apply (press_records_snapshot 5 RightButton (1, 1) w w). discriminate.
Defined.

(** One stroke is one undo step: after a left press (with its bucket fill,
    when that ends), any drag and the release, a single [undo] brings back
    the pixmap from before the press, whatever Qt paints. *)
Theorem stroke_one_undo (drawLine drawRect drawEllipse : image -> qpen -> Z * Z -> Z * Z -> image)
    (fuel : nat) (pos endp : Z * Z) (moves : list (Z * Z)) (w w1 : widget) :
  mousePressEvent fuel LeftButton pos w = Some w1 ->
  let w3 := mouseReleaseEvent drawLine drawRect drawEllipse endp (drag drawLine moves w1) in
  pixmap (undo (cv w3)) = pixmap (cv w) /\ redo_stack (cv w3) = [].
Proof.
  intros Hp w3.
  destruct (press_records_snapshot fuel LeftButton pos w w1) as [_ [H1 [H2 _]]]; [exact Hp|].
  destruct (release_stacks drawLine drawRect drawEllipse endp (drag drawLine moves w1)) as [R1 R2].
  destruct (drag_stacks drawLine moves w1) as [D1 D2].
  fold w3 in R1, R2.
  destruct (save_state_history_last (cv w)) as [h Hh].
  split; [|congruence].
  unfold undo. rewrite R1, D1, H1, Hh, pop_last_app. reflexivity.
Qed.

Lemma stroke_one_undo_witness :
  let dl := fun (i : image) (_ : qpen) (_ _ : Z * Z) => fill i black in
  let w := mk_widget (initial_canvas (uniform 2 2 white) black) Pen 4 (0, 0) (0, 0) in
  let w1 := mk_widget (save_state (cv w)) Pen 4 (0, 0) (0, 0) in
  mousePressEvent 0 LeftButton (0, 0) w = Some w1 /\
  pixmap (undo (cv (mouseReleaseEvent dl dl dl (1, 1) (drag dl [(1, 0); (1, 1)] w1))))
  = uniform 2 2 white.
Proof.
  intros dl w w1.
  assert (E : mousePressEvent 0 LeftButton (0, 0) w = Some w1) by reflexivity.
  split; [exact E|].
  apply (stroke_one_undo dl dl dl 0 (0, 0) (1, 1) [(1, 0); (1, 1)] w w1 E).
Defined.

(** The release handler does not look at the button: a right-button click
    with the line, rectangle or ellipse tool paints the shape from the
    last left-press point without recording anything, so the history and
    redo stack are those from before the click. *)
Theorem right_click_paints_unrecorded
    (drawLine drawRect drawEllipse : image -> qpen -> Z * Z -> Z * Z -> image)
    (fuel : nat) (p q : Z * Z) (w : widget) :
  cur_tool w = Line ->
  exists w1, mousePressEvent fuel RightButton p w = Some w1 /\
  let w2 := mouseReleaseEvent drawLine drawRect drawEllipse q w1 in
  pixmap (cv w2) = drawLine (pixmap (cv w)) (mk_qpen (pen_color (cv w)) (pen_size w) false)
                            (start_point w) q /\
  history (cv w2) = history (cv w) /\ redo_stack (cv w2) = redo_stack (cv w).
Proof.
  intros Ht. exists w. split; [reflexivity|].
  unfold mouseReleaseEvent. rewrite Ht. cbn. auto.
Qed.

Lemma right_click_paints_unrecorded_witness :
  let dl := fun (i : image) (_ : qpen) (_ _ : Z * Z) => fill i black in
  let w := mk_widget (mk_canvas (uniform 2 2 white) [uniform 2 2 red_c] [] black)
                     Line 4 (0, 0) (0, 0) in
  cur_tool w = Line /\
  history (cv (mouseReleaseEvent dl dl dl (1, 1) w)) = [uniform 2 2 red_c].
Proof.
  intros dl w. split; [reflexivity|].
  destruct (right_click_paints_unrecorded dl dl dl 0 (0, 0) (1, 1) w eq_refl)
    as [w1 [E [_ [H _]]]].
  injection E as <-. exact H.
Defined.

(** After [set_tool t], exactly one tool button is checked: the one of [t]. *)
Theorem set_tool_one_checked (t : tool) (w : widget) (buttons : list (tool * bool)) :
  map fst buttons = all_tools ->
  cur_tool (fst (set_tool t w buttons)) = t /\
  map fst (filter snd (snd (set_tool t w buttons))) = [t].
Proof.
  intros Hk. split; [reflexivity|].
  unfold set_tool, update_tool_buttons; cbn [fst snd cur_tool].
  assert (E : map (fun '(t', _) => (t', tool_eqb t t')) buttons =
              map (fun t' => (t', tool_eqb t t')) (map fst buttons)).
  { rewrite map_map. apply map_ext. intros [a b]. reflexivity. }
  rewrite E, Hk. destruct t; reflexivity.
Qed.

Lemma set_tool_one_checked_witness :
  let bs := map (fun t => (t, true)) all_tools in
  map fst bs = all_tools /\
  map fst (filter snd (snd (set_tool Ellipse
     (mk_widget (initial_canvas (uniform 1 1 white) black) Pen 4 (0, 0) (0, 0)) bs))) = [Ellipse].
Proof.
  intros bs. split; [reflexivity|].
  apply (set_tool_one_checked Ellipse _ bs). reflexivity.
Defined.

End Extra.

(** * Further properties of the bucket fill *)

Module FillMore.

Ltac zcases := Fill.zcases.

Lemma filter_length_le {A} (f g : A -> bool) l :
  (forall x, In x l -> g x = true -> f x = true) ->
  (length (filter g l) <= length (filter f l))%nat.
Proof.
  induction l as [|a l IH]; intros H; [reflexivity|]. cbn.
  assert (IH' := IH (fun x Hx => H x (or_intror Hx))).
  destruct (g a) eqn:Eg.
  - rewrite (H a (or_introl eq_refl) Eg). cbn. lia.
  - destruct (f a); cbn; lia.
Qed.

Lemma filter_length_lt {A} (f g : A -> bool) l :
  (forall x, In x l -> g x = true -> f x = true) ->
  (exists x, In x l /\ f x = true /\ g x = false) ->
  (length (filter g l) < length (filter f l))%nat.
Proof.
  induction l as [|a l IH]; intros H [x [Hx [Hf Hg]]]; [destruct Hx|]. cbn.
  assert (Hle := filter_length_le f g l (fun y Hy => H y (or_intror Hy))).
  destruct Hx as [<-|Hx].
  - rewrite Hf, Hg. cbn. lia.
  - assert (IH' := IH (fun y Hy => H y (or_intror Hy)) (ex_intro _ x (conj Hx (conj Hf Hg)))).
    destruct (g a) eqn:Eg.
    + rewrite (H a (or_introl eq_refl) Eg). cbn. lia.
    + destruct (f a); cbn; lia.
Qed.

Lemma in_zrange n x : 0 <= x < n -> In x (zrange n).
Proof.
  intros Hx. unfold zrange. apply in_map_iff. exists (Z.to_nat x).
  split; [lia|]. apply in_seq. lia.
Qed.

Lemma in_grid w h x y : 0 <= x < w -> 0 <= y < h -> In (x, y) (grid w h).
Proof.
  intros Hx Hy. unfold grid. apply in_flat_map. exists y.
  split; [apply in_zrange; exact Hy|]. apply in_map_iff. exists x.
  split; [reflexivity|apply in_zrange; exact Hx].
Qed.

Lemma length_grid w h : length (grid w h) = (Z.to_nat w * Z.to_nat h)%nat.
Proof.
  unfold grid, zrange. rewrite <- (length_seq (Z.to_nat h) 0) at 2.
  generalize (seq 0 (Z.to_nat h)) as L.
  induction L as [|y L IH]; cbn [map flat_map length]; [lia|].
  rewrite length_app, IH, !length_map, length_seq. lia.
Qed.

Lemma count_similar_le img t :
  (count_similar img t <= Z.to_nat (img_width img) * Z.to_nat (img_height img))%nat.
Proof.
  unfold count_similar. rewrite <- length_grid.
  induction (grid (img_width img) (img_height img)) as [|[x y] l IH]; [reflexivity|].
  cbn. destruct (similar _ _ _); cbn; lia.
Qed.

Section Termination.

Variables (width height : Z) (target_color replacement_color : color).

Local Abbreviation sim c := (similar c target_color default_tol).

(** With a replacement colour not similar to the target, every productive
    round removes at least one similar pixel and pushes at most [2 * width]
    points: the loop ends within [count * (2 * width + 1) + length stack + 1]
    rounds. *)
Lemma fill_loop_terminates fuel : forall img stack,
  img_width img = width -> img_height img = height -> 0 <= width ->
  sim replacement_color = false ->
  Z.of_nat fuel > Z.of_nat (count_similar img target_color) * (2 * width + 1)
                  + Z.of_nat (length stack) ->
  exists img', fill_loop width height target_color replacement_color fuel img stack = Some img'.
Proof.
  induction fuel as [|fuel IH]; intros img stack Hw Hh HW Hr Hfuel; [lia|].
  cbn [fill_loop]. destruct stack as [|[x y] stack]; [eauto|].
  cbn [length] in Hfuel.
  destruct (Fill.fill_step_cases width height target_color replacement_color img x y stack Hw Hh)
    as [[E _]|[Hx [Hy [Hs [l [r [Hl [Hr' [_ [_ E]]]]]]]]]]; rewrite E.
  - apply IH; auto. lia.
  - pose proof (Fill.span_loop_spec height target_color replacement_color y
                  (Z.to_nat (r - l + 1)) l img stack) as Sp.
    destruct (span_loop height target_color replacement_color (Z.to_nat (r - l + 1)) l y img stack)
      as [img1 stack1] eqn:E1.
    destruct Sp as [W1 [H1 [P1 [pushes [Hs1 [Hlen _]]]]]]; [lia|lia|lia|].
    assert (Hc : (count_similar img1 target_color < count_similar img target_color)%nat).
    { unfold count_similar. rewrite W1, H1. apply filter_length_lt.
      - intros [a b] _. rewrite P1.
        destruct (_ && _ && _); [rewrite Hr; discriminate|auto].
      - exists (x, y). split; [apply in_grid; lia|]. split; [exact Hs|].
        rewrite P1. replace ((y =? y) && (l <=? x) && (x <? l + Z.of_nat (Z.to_nat (r - l + 1))))
          with true by zcases. exact Hr. }
    apply IH; [congruence|congruence|exact HW|exact Hr|].
    rewrite Hs1, length_app. nia.
Qed.

(** A run of the loop writes only the replacement colour, keeps the size,
    and never changes a pixel that already has the replacement colour. *)
Lemma fill_loop_writes fuel : forall img stack img',
  img_width img = width -> img_height img = height ->
  fill_loop width height target_color replacement_color fuel img stack = Some img' ->
  img_width img' = width /\ img_height img' = height /\
  forall a b, (pixel img' a b = pixel img a b \/ pixel img' a b = replacement_color) /\
              (pixel img a b = replacement_color -> pixel img' a b = replacement_color).
Proof.
  induction fuel as [|fuel IH]; intros img stack img' Hw Hh Hrun; [discriminate|].
  cbn [fill_loop] in Hrun. destruct stack as [|[x y] stack].
  { injection Hrun as <-. split; [exact Hw|]. split; [exact Hh|]. intros; auto. }
  destruct (Fill.fill_step_cases width height target_color replacement_color img x y stack Hw Hh)
    as [[E _]|[Hx [Hy [Hs [l [r [Hl [Hr' [_ [_ E]]]]]]]]]]; rewrite E in Hrun.
  - eapply IH; eauto.
  - pose proof (Fill.span_loop_spec height target_color replacement_color y
                  (Z.to_nat (r - l + 1)) l img stack) as Sp.
    destruct (span_loop height target_color replacement_color (Z.to_nat (r - l + 1)) l y img stack)
      as [img1 stack1] eqn:E1.
    destruct Sp as [W1 [H1 [P1 _]]]; [lia|lia|lia|].
    destruct (IH img1 stack1 img' ltac:(congruence) ltac:(congruence) Hrun) as [W2 [H2 P2]].
    split; [exact W2|]. split; [exact H2|]. intros a b.
    destruct (P2 a b) as [Q1 Q2]. rewrite P1 in Q1, Q2.
    destruct (_ && _ && _).
    + split; [right|intros _]; destruct Q1; auto.
    + split; [exact Q1|exact Q2].
Qed.

End Termination.

(** [bucket_fill] ends, within [W * H * (2 * W + 1) + 2] rounds, whenever the
    pen colour is not similar to the colour under the seed. *)
Lemma bucket_fill_terminates fuel s x y :
  0 <= img_width (pixmap s) ->
  similar (pen_color s) (pixel (pixmap s) x y) default_tol = false ->
  Z.of_nat fuel > Z.of_nat (Z.to_nat (img_width (pixmap s)) * Z.to_nat (img_height (pixmap s)))
                  * (2 * img_width (pixmap s) + 1) + 1 ->
  exists s', bucket_fill fuel s (x, y) = Some s'.
Proof.
  intros HW Hsim Hfuel. unfold bucket_fill. cbn [fst snd]. unfold pixelColor.
  destruct (color_eqb _ _); [eauto|].
  destruct (fill_loop_terminates (img_width (pixmap s)) (img_height (pixmap s))
              (pixel (pixmap s) x y) (pen_color s) fuel (pixmap s) [(x, y)]
              eq_refl eq_refl HW Hsim) as [img' E].
  - pose proof (count_similar_le (pixmap s) (pixel (pixmap s) x y)). cbn [length]. nia.
  - rewrite E. eauto.
Qed.

(** A seed outside the image leaves the canvas as it was. *)
Lemma bucket_fill_outside fuel s x y :
  in_bounds (pixmap s) x y = false ->
  bucket_fill (S (S fuel)) s (x, y) = Some s.
Proof.
  intros Hout. unfold bucket_fill. cbn [fst snd]. destruct (color_eqb _ _); [reflexivity|].
  cbn [fill_loop fill_step]. unfold in_bounds in Hout.
  replace ((x <? 0) || (img_width (pixmap s) <=? x) || (y <? 0) || (img_height (pixmap s) <=? y))
    with true by (revert Hout; zcases).
  cbn. destruct s; reflexivity.
Qed.

(** A successful [bucket_fill] keeps the size, the undo and redo stacks and
    the pen; it writes only the pen colour, and the seed, when inside the
    image, ends in the pen colour. *)
Lemma bucket_fill_writes fuel s x y s' :
  bucket_fill fuel s (x, y) = Some s' ->
  history s' = history s /\ redo_stack s' = redo_stack s /\ pen_color s' = pen_color s /\
  img_width (pixmap s') = img_width (pixmap s) /\
  img_height (pixmap s') = img_height (pixmap s) /\
  (forall a b, pixel (pixmap s') a b = pixel (pixmap s) a b \/
               pixel (pixmap s') a b = pen_color s) /\
  (in_bounds (pixmap s) x y = true -> pixel (pixmap s') x y = pen_color s).
Proof.
  unfold bucket_fill. cbn [fst snd]. unfold pixelColor.
  set (img := pixmap s). set (t := pixel img x y).
  destruct (color_eqb t (pen_color s)) eqn:Eq.
  { intros [= <-]. apply Fill.color_eqb_true in Eq.
    repeat split; auto. }
  destruct (fill_loop _ _ _ _ fuel img [(x, y)]) as [img'|] eqn:E; [|discriminate].
  intros [= <-]. cbn.
  destruct (fill_loop_writes (img_width img) (img_height img) t (pen_color s)
              fuel img [(x, y)] img' eq_refl eq_refl E) as [W1 [H1 P1]].
  repeat split; auto; [intros a b; apply P1|]. intros Hin.
  destruct fuel as [|fuel]; [discriminate|]. cbn [fill_loop] in E.
  destruct (Fill.fill_step_cases (img_width img) (img_height img) t (pen_color s)
              img x y [] eq_refl eq_refl)
    as [[_ Hn]|[Hx [Hy [Hs [l [r [Hl [Hr' [_ [_ E2]]]]]]]]]].
  - exfalso. apply Hn. unfold in_bounds in Hin. unfold t. rewrite Fill.similar_refl.
    rewrite !andb_true_iff, Z.leb_le, Z.ltb_lt, Z.leb_le, Z.ltb_lt in Hin.
    repeat split; lia.
  - rewrite E2 in E.
    pose proof (Fill.span_loop_spec (img_height img) t (pen_color s) y
                  (Z.to_nat (r - l + 1)) l img []) as Sp.
    destruct (span_loop _ _ _ (Z.to_nat (r - l + 1)) l y img []) as [img1 stack1] eqn:E1.
    destruct Sp as [W2 [H2 [P2 _]]]; [lia|lia|lia|].
    destruct (fill_loop_writes (img_width img) (img_height img) t (pen_color s)
                fuel img1 stack1 img' ltac:(congruence) ltac:(congruence) E) as [_ [_ P3]].
    apply (proj2 (P3 x y)). rewrite P2.
    replace ((y =? y) && (l <=? x) && (x <? l + Z.of_nat (Z.to_nat (r - l + 1)))) with true
      by zcases. reflexivity.
Qed.

Lemma bucket_fill_terminates_witness :
  let s := initial_canvas (uniform 3 2 white) black in
  0 <= 3 /\ similar black white default_tol = false /\
  exists s', bucket_fill 44 s (1, 1) = Some s'.
Proof.
  intros s. split; [lia|]. split; [reflexivity|].
  apply (bucket_fill_terminates 44 s 1 1); [cbn; lia|reflexivity|cbn; lia].
Defined.

Lemma bucket_fill_outside_witness :
  let s := initial_canvas (uniform 3 2 white) black in
  in_bounds (pixmap s) 5 0 = false /\ bucket_fill 3 s (5, 0) = Some s.
Proof.
  intros s. split; [reflexivity|].
  apply (bucket_fill_outside 1 s 5 0). reflexivity.
Defined.

Lemma bucket_fill_writes_witness :
  let s := initial_canvas (uniform 3 2 white) black in
  exists s', bucket_fill 44 s (1, 1) = Some s' /\ pixel (pixmap s') 1 1 = black.
Proof.
  intros s.
  destruct (bucket_fill 44 s (1, 1)) as [s'|] eqn:E; [|vm_compute in E; discriminate].
  exists s'. split; [reflexivity|].
  destruct (bucket_fill_writes 44 s 1 1 s' E) as [_ [_ [_ [_ [_ [_ Hseed]]]]]].
  apply Hseed. reflexivity.
Defined.

End FillMore.

Module Strokes.

Lemma last_cons {A} (q : A) moves d : last (q :: moves) d = last moves q.
Proof.
  revert q d. induction moves as [|a moves IH]; intros q d; [reflexivity|].
  change (last (a :: moves) d = last (a :: moves) q). rewrite !IH. reflexivity.
Qed.

(** A drag with the left button held: with the pen or the eraser it draws the
    connected path from [last_point] through every move, with one pen fixed
    by the tool (the eraser: white, three times the size, round cap), and
    ends with [last_point] at the last move; with any other tool it changes
    nothing. The history and the redo stack are never touched. *)
Lemma drag_draws_path drawLine moves : forall w,
  drag drawLine moves w =
  match cur_tool w with
  | Pen | Eraser =>
      let pen := mk_qpen
        (if tool_eqb (cur_tool w) Eraser then white else pen_color (cv w))
        (if tool_eqb (cur_tool w) Eraser then pen_size w * 3 else pen_size w)
        true in
      mk_widget (set_pixmap (cv w) (draw_path drawLine (pixmap (cv w)) pen (last_point w) moves))
        (cur_tool w) (pen_size w) (start_point w) (last moves (last_point w))
  | _ => w
  end.
Proof.
  induction moves as [|q moves IH]; intros [c t sz st lp].
  - cbn. destruct t; cbn; auto; destruct c; reflexivity.
  - change (drag drawLine (q :: moves) (mk_widget c t sz st lp))
      with (drag drawLine moves (mouseMoveEvent drawLine true q (mk_widget c t sz st lp))).
    rewrite IH. destruct t; cbn -[last]; rewrite ?last_cons; reflexivity.
Qed.

End Strokes.
